(** * Snake game: the state machine of [src/snake-game.tsx]

    A shallow embedding of the game logic of the [SnakeGame] component:
    the React state cells become one record, every event handler becomes a
    function on that record, and the interval effect becomes [commit].

    Numbers.  Grid coordinates and the score are integer-valued JS numbers
    and are modelled as [Z]; the JS remainder [%] truncates towards zero,
    which is [Z.rem].  A draw of [Math.random()] is a rational [Q] (the
    product with [GRID_SIZE] is taken exactly), and [Math.floor] is
    [Qfloor].  The draws a handler consumes are passed to it explicitly.

    Presentation-only state ([isMobile], [cellSize], [gameAreaRef]) is left
    out: no handler of the game logic reads it. *)

From Stdlib Require Import ZArith QArith Qround Qminmax DecimalString.
From Stdlib Require Import String List Bool Lia.
Import ListNotations.
Open Scope Z_scope.

(** ** Types and constants (lines 9-23) *)

Inductive Direction : Type := UP | DOWN | LEFT | RIGHT.

Definition Position : Type := (Z * Z)%type.

Inductive Difficulty : Type := Easy | Normal | Hard.

Definition GRID_SIZE : Z := 20.
Definition CELL_SIZE : Z := 20.
Definition INITIAL_SNAKE : list Position := [(5, 5)].
Definition INITIAL_DIRECTION : Direction := RIGHT.

Definition GAME_SPEEDS (d : Difficulty) : Z :=
  match d with
  | Easy => 200
  | Normal => 150
  | Hard => 100
  end.

(** ** The component state (lines 26-36) *)

Record State : Type := mkState {
  snake : list Position;
  direction : Direction;
  food : Position;
  gameOver : bool;
  score : Z;
  isPlaying : bool;
  difficulty : Difficulty;
  (** [gameIntervalRef.current]: [Some p] is a live interval of period [p]
      milliseconds, [None] is no live interval. *)
  gameIntervalRef : option Z
}.

Definition setSnake (v : list Position) (s : State) : State :=
  mkState v (direction s) (food s) (gameOver s) (score s) (isPlaying s)
          (difficulty s) (gameIntervalRef s).
Definition setDirection (v : Direction) (s : State) : State :=
  mkState (snake s) v (food s) (gameOver s) (score s) (isPlaying s)
          (difficulty s) (gameIntervalRef s).
Definition setFood (v : Position) (s : State) : State :=
  mkState (snake s) (direction s) v (gameOver s) (score s) (isPlaying s)
          (difficulty s) (gameIntervalRef s).
Definition setGameOver (v : bool) (s : State) : State :=
  mkState (snake s) (direction s) (food s) v (score s) (isPlaying s)
          (difficulty s) (gameIntervalRef s).
Definition setScore (v : Z) (s : State) : State :=
  mkState (snake s) (direction s) (food s) (gameOver s) v (isPlaying s)
          (difficulty s) (gameIntervalRef s).
Definition setIsPlaying (v : bool) (s : State) : State :=
  mkState (snake s) (direction s) (food s) (gameOver s) (score s) v
          (difficulty s) (gameIntervalRef s).
Definition setDifficulty (v : Difficulty) (s : State) : State :=
  mkState (snake s) (direction s) (food s) (gameOver s) (score s)
          (isPlaying s) v (gameIntervalRef s).
Definition setGameIntervalRef (v : option Z) (s : State) : State :=
  mkState (snake s) (direction s) (food s) (gameOver s) (score s)
          (isPlaying s) (difficulty s) v.

(** The values of [useState] at the first render. *)
Definition initialState : State :=
  mkState INITIAL_SNAKE INITIAL_DIRECTION (0, 0) false 0 false Normal None.

(** ** Equality tests *)

Definition Direction_eqb (a b : Direction) : bool :=
  match a, b with
  | UP, UP | DOWN, DOWN | LEFT, LEFT | RIGHT, RIGHT => true
  | _, _ => false
  end.

Definition Difficulty_eqb (a b : Difficulty) : bool :=
  match a, b with
  | Easy, Easy | Normal, Normal | Hard, Hard => true
  | _, _ => false
  end.

(** [a[0] === b[0] && a[1] === b[1]], the cell comparison of lines 77, 86. *)
Definition samePosition (a b : Position) : bool :=
  (fst a =? fst b) && (snd a =? snd b).

Fixpoint sameSnake (a b : list Position) : bool :=
  match a, b with
  | [], [] => true
  | x :: a', y :: b' => samePosition x y && sameSnake a' b'
  | _, _ => false
  end.

(** ** Array helpers *)

(** [arr.some((element, index) => ...)], scanning from index [index]. *)
Fixpoint some_from {A : Type} (callback : A -> nat -> bool) (index : nat)
         (arr : list A) : bool :=
  match arr with
  | [] => false
  | element :: rest =>
      callback element index || some_from callback (S index) rest
  end.

Definition Array_some {A : Type} (callback : A -> nat -> bool)
           (arr : list A) : bool :=
  some_from callback 0%nat arr.

(** [arr.unshift(x)] and [arr.pop()] (the array that is left). *)
Definition unshift {A : Type} (x : A) (arr : list A) : list A := x :: arr.
Definition pop {A : Type} (arr : list A) : list A := removelast arr.

(** ** Food placement (lines 38-43) *)

Definition getRandomPosition (rx ry : Q) : Position :=
  (Qfloor (rx * inject_Z GRID_SIZE), Qfloor (ry * inject_Z GRID_SIZE)).

(** What [Math.random()] can return: a number in [0, 1). *)
Definition unit_draw (r : Q) : Prop := (0 <= r)%Q /\ (r < 1)%Q.

(** ** The tick (lines 54-94) *)

(** The [switch (direction)] of lines 60-74. *)
Definition newHeadOf (d : Direction) (head : Position) : Position :=
  let '(headX, headY) := head in
  match d with
  | UP => (headX, Z.rem (headY - 1 + GRID_SIZE) GRID_SIZE)
  | DOWN => (headX, Z.rem (headY + 1) GRID_SIZE)
  | LEFT => (Z.rem (headX - 1 + GRID_SIZE) GRID_SIZE, headY)
  | RIGHT => (Z.rem (headX + 1) GRID_SIZE, headY)
  end.

(** The test of line 77. *)
Definition selfCollision (newSnake : list Position) (newHead : Position)
  : bool :=
  Array_some
    (fun segment index =>
       negb (index =? 0)%nat
       && (fst segment =? fst newHead) && (snd segment =? snd newHead))
    newSnake.

(** [moveSnake]; [None] is the [TypeError] of destructuring [newSnake[0]]
    of an empty array.  [rx], [ry] are the draws of [getRandomPosition]
    at line 87, consumed only when the food is eaten. *)
Definition moveSnake (s : State) (rx ry : Q) : option State :=
  if gameOver s || negb (isPlaying s) then Some s
  else
    let newSnake := snake s in
    match newSnake with
    | [] => None
    | head :: _ =>
        let newHead := newHeadOf (direction s) head in
        if selfCollision newSnake newHead then
          Some (setIsPlaying false (setGameOver true s))
        else
          let newSnake := unshift newHead newSnake in
          if (fst newHead =? fst (food s)) && (snd newHead =? snd (food s))
          then
            Some (setSnake newSnake
                    (setScore (score s + 1)
                       (setFood (getRandomPosition rx ry) s)))
          else Some (setSnake (pop newSnake) s)
    end.

(** ** Direction requests (lines 97-113 and 155-167) *)

Definition handleKeyPress (s : State) (key : string) : State :=
  if negb (isPlaying s) then s
  else
    let prev := direction s in
    if (key =? "ArrowUp")%string then
      setDirection (if negb (Direction_eqb prev DOWN) then UP else prev) s
    else if (key =? "ArrowDown")%string then
      setDirection (if negb (Direction_eqb prev UP) then DOWN else prev) s
    else if (key =? "ArrowLeft")%string then
      setDirection (if negb (Direction_eqb prev RIGHT) then LEFT else prev) s
    else if (key =? "ArrowRight")%string then
      setDirection (if negb (Direction_eqb prev LEFT) then RIGHT else prev) s
    else s.

Definition handleTouchStart (s : State) (newDirection : Direction) : State :=
  if negb (isPlaying s) then s
  else if (Direction_eqb (direction s) UP && Direction_eqb newDirection DOWN)
          || (Direction_eqb (direction s) DOWN && Direction_eqb newDirection UP)
          || (Direction_eqb (direction s) LEFT
              && Direction_eqb newDirection RIGHT)
          || (Direction_eqb (direction s) RIGHT
              && Direction_eqb newDirection LEFT)
  then s
  else setDirection newDirection s.

(** ** Session commands (lines 146-153 and 169-179) *)

Definition resetGame (s : State) (rx ry : Q) : State :=
  setIsPlaying true
    (setScore 0
       (setGameOver false
          (setFood (getRandomPosition rx ry)
             (setDirection INITIAL_DIRECTION (setSnake INITIAL_SNAKE s))))).

Definition startGame (s : State) (rx ry : Q) : State :=
  setIsPlaying true (resetGame s rx ry).

Definition handleDifficultyChange (s : State) (value : Difficulty)
           (rx ry : Q) : State :=
  let s' := setDifficulty value s in
  if isPlaying s then resetGame s' rx ry else s'.

(** ** The interval effect (lines 128-140, and the cleanup of lines 119-125)

    The effect depends on [isPlaying], [difficulty] and [moveSnake], and
    [moveSnake] is rebuilt when [snake], [direction], [food], [gameOver]
    or [isPlaying] change.  When a dependency changed, the cleanup clears
    the interval and the body installs a new one iff [isPlaying].
    Dependencies are compared by value here. *)

Definition sameDeps (a b : State) : bool :=
  Bool.eqb (isPlaying a) (isPlaying b)
  && Difficulty_eqb (difficulty a) (difficulty b)
  && sameSnake (snake a) (snake b)
  && Direction_eqb (direction a) (direction b)
  && samePosition (food a) (food b)
  && Bool.eqb (gameOver a) (gameOver b).

Definition intervalEffect (s : State) : State :=
  let cleared := setGameIntervalRef None s in
  if isPlaying s
  then setGameIntervalRef (Some (GAME_SPEEDS (difficulty s))) cleared
  else cleared.

(** The render that follows a handler: [prev] is the state the handler
    ran in, [next] the state it produced. *)
Definition commit (prev next : State) : State :=
  if sameDeps prev next then next else intervalEffect next.

(** ** Events *)

Inductive Event : Type :=
| Tick (rx ry : Q)                 (* the interval fires [moveSnake] *)
| KeyDown (key : string)           (* [handleKeyPress] *)
| TouchStart (d : Direction)       (* [handleTouchStart] *)
| ClickStart (rx ry : Q)           (* the Start Game button: [startGame] *)
| ClickPlayAgain (rx ry : Q)       (* the Play Again button: [resetGame] *)
| SelectDifficulty (value : Difficulty) (rx ry : Q).

Definition handle (s : State) (e : Event) : option State :=
  match e with
  | Tick rx ry => moveSnake s rx ry
  | KeyDown key => Some (handleKeyPress s key)
  | TouchStart d => Some (handleTouchStart s d)
  | ClickStart rx ry => Some (startGame s rx ry)
  | ClickPlayAgain rx ry => Some (resetGame s rx ry)
  | SelectDifficulty value rx ry => Some (handleDifficultyChange s value rx ry)
  end.

Definition dispatch (s : State) (e : Event) : option State :=
  option_map (commit s) (handle s e).

Fixpoint run (s : State) (es : list Event) : option State :=
  match es with
  | [] => Some s
  | e :: es' =>
      match dispatch s e with
      | Some s' => run s' es'
      | None => None
      end
  end.

(** The draws an event carries are draws of [Math.random()]. *)
Definition valid_event (e : Event) : Prop :=
  match e with
  | Tick rx ry | ClickStart rx ry | ClickPlayAgain rx ry
  | SelectDifficulty _ rx ry => unit_draw rx /\ unit_draw ry
  | KeyDown _ | TouchStart _ => True
  end.

(** An event that invokes [resetGame] from a state that is not playing. *)
Definition is_restart (e : Event) : bool :=
  match e with
  | ClickStart _ _ | ClickPlayAgain _ _ => true
  | _ => false
  end.

(** The state after the mount effect of lines 142-144. *)
Definition mounted (rx ry : Q) : State :=
  commit initialState (setFood (getRandomPosition rx ry) initialState).

Inductive reachable : State -> Prop :=
| reach_mounted rx ry :
    unit_draw rx -> unit_draw ry -> reachable (mounted rx ry)
| reach_step s e s' :
    reachable s -> valid_event e -> dispatch s e = Some s' -> reachable s'.

(** ** Vocabulary of the specification *)

Definition opposite (d : Direction) : Direction :=
  match d with
  | UP => DOWN
  | DOWN => UP
  | LEFT => RIGHT
  | RIGHT => LEFT
  end.

Definition keyOf (d : Direction) : string :=
  match d with
  | UP => "ArrowUp"
  | DOWN => "ArrowDown"
  | LEFT => "ArrowLeft"
  | RIGHT => "ArrowRight"
  end.

Definition in_grid (p : Position) : Prop :=
  0 <= fst p < GRID_SIZE /\ 0 <= snd p < GRID_SIZE.


(** The session states of the specification. *)
Definition Playing (s : State) : Prop :=
  isPlaying s = true /\ gameOver s = false.
Definition GameOver (s : State) : Prop :=
  gameOver s = true /\ isPlaying s = false.

(** ** Invariants of the state *)

Record Inv (s : State) : Prop := mkInv {
  inv_nonempty : snake s <> [];
  inv_cells : Forall in_grid (snake s);
  inv_food : in_grid (food s);
  inv_length : Z.of_nat (length (snake s)) = 1 + score s;
  inv_over : gameOver s = true -> isPlaying s = false
}.

(** The interval is live exactly while playing, at the selected period. *)
Definition clock_ok (s : State) : Prop :=
  gameIntervalRef s =
  if isPlaying s then Some (GAME_SPEEDS (difficulty s)) else None.

(** ** Example states

    [demoTrace] is a session from the mounted component: start (food drawn
    at (6, 5)), eat twice going RIGHT, turn UP, move; it ends in
    [demoState]. *)

Definition demoTrace : list Event :=
  [ClickStart (5 # 16) (1 # 4); Tick (3 # 8) (1 # 4); Tick 0 0;
   KeyDown "ArrowUp"; Tick 0 0].

Definition demoState : State :=
  mkState [(7, 4); (7, 5); (6, 5)] UP (0, 0) false 2 true Normal (Some 150).

(** A closed loop whose head is about to enter the cell of its tail. *)
Definition loopState : State :=
  mkState [(3, 3); (4, 3); (4, 4); (3, 4)] DOWN (9, 9) false 3 true Normal
          (Some 150).

(** A straight Organism of three cells with nothing ahead of it. *)
Definition threeState : State :=
  mkState [(3, 3); (2, 3); (1, 3)] RIGHT (9, 9) false 2 true Normal (Some 150).

(** A fresh session with the Food right ahead of the head. *)
Definition aboutToEat : State :=
  mkState [(5, 5)] RIGHT (6, 5) false 0 true Normal (Some 150).

(** ** The view (lines 31-32, 45-52 and 181-323)

    The two state cells that only the presentation reads, the resize
    handler that writes them, and the parts of the returned JSX that
    depend on the game state: the geometry of the board, of the segments
    and of the food, the React key of a segment, and which controls are
    shown.  A [getBoundingClientRect()] measure is a rational; the
    [innerWidth] of the window is an integer number of pixels. *)

Record View : Type := mkView {
  cellSize : Z;
  isMobile : bool
}.

Definition initialView : View := mkView CELL_SIZE false.

(** [handleResize]; [rect] is [None] when [gameAreaRef.current] is null,
    and the [(width, height)] of the game area otherwise. *)
Definition handleResize (rect : option (Q * Q)) (innerWidth : Z) (v : View)
  : View :=
  let v' :=
    match rect with
    | Some (width, height) =>
        let newSize := Qfloor (Qmin width height / inject_Z GRID_SIZE) in
        mkView newSize (isMobile v)
    | None => v
    end in
  mkView (cellSize v') (innerWidth <? 768).

(** The [position: absolute] boxes of the [style] props. *)
Record Box : Type := mkBox {
  left : Z;
  top : Z;
  width : Z;
  height : Z
}.

(** The game area (lines 214-218), in its own coordinates. *)
Definition boardBox (v : View) : Box :=
  mkBox 0 0 (GRID_SIZE * cellSize v) (GRID_SIZE * cellSize v).

(** A segment (lines 228-235) and the food (lines 245-252). *)
Definition segmentBox (v : View) (segment : Position) : Box :=
  mkBox (fst segment * cellSize v) (snd segment * cellSize v)
        (cellSize v) (cellSize v).



(** The template literal [`${n}`] of an integer-valued number. *)
Definition numberToString (n : Z) : string :=
  NilZero.string_of_int (Z.to_int n).

(** The React key of a segment (line 226). *)
Definition segmentKey (segment : Position) : string :=
  (numberToString (fst segment) ++ "-" ++ numberToString (snd segment))%string.

(** The touch buttons are rendered (line 258). *)
Definition showTouchControls (v : View) (s : State) : bool :=
  isMobile v && isPlaying s.

(** The button under the board (lines 292-317), if any. *)
Inductive OverlayButton : Type := PlayAgainButton | StartGameButton.

Definition overlay (s : State) : option OverlayButton :=
  if gameOver s || negb (isPlaying s) then
    Some (if gameOver s then PlayAgainButton else StartGameButton)
  else None.

(** ** More vocabulary *)

(** The cells of the grid, column by column. *)
Definition axis : list Z := map Z.of_nat (seq 0 (Z.to_nat GRID_SIZE)).

Definition gridCells : list Position :=
  flat_map (fun x => map (fun y => (x, y)) axis) axis.

(** [a] is one step away from [b] on the torus. *)
Definition adjacent (a b : Position) : Prop :=
  exists d, a = newHeadOf d b.

(** Each cell is one step away from the next one, head first. *)
Fixpoint linked (body : list Position) : Prop :=
  match body with
  | a :: ((b :: _) as rest) => adjacent a b /\ linked rest
  | _ => True
  end.

(** The displacement of a heading. *)
Definition delta (d : Direction) : Z * Z :=
  match d with
  | UP => (0, -1)
  | DOWN => (0, 1)
  | LEFT => (-1, 0)
  | RIGHT => (1, 0)
  end.

(** The state right after a restart at difficulty [d] with draws [rx],
    [ry]. *)
Definition freshSession (d : Difficulty) (rx ry : Q) : State :=
  mkState INITIAL_SNAKE INITIAL_DIRECTION (getRandomPosition rx ry) false 0
          true d (Some (GAME_SPEEDS d)).

(** A session that was never started. *)
Definition neverStarted (s : State) : Prop :=
  snake s = INITIAL_SNAKE /\ direction s = INITIAL_DIRECTION /\ score s = 0.

(** What else every reachable state satisfies. *)
Record Inv2 (s : State) : Prop := mkInv2 {
  inv_nodup : NoDup (snake s);
  inv_linked : linked (snake s);
  inv_fresh : isPlaying s = false -> gameOver s = false -> neverStarted s
}.

(** * Properties *)

(** ** Basic facts about the helpers *)

Lemma Direction_eqb_eq (a b : Direction) : Direction_eqb a b = true <-> a = b.
Proof. destruct a, b; simpl; split; congruence. Qed.

Lemma samePosition_eq (a b : Position) : samePosition a b = true <-> a = b.
Proof.
  destruct a as [ax ay], b as [bx by']; unfold samePosition; simpl.
  rewrite andb_true_iff, !Z.eqb_eq. split.
  - intros [-> ->]; reflexivity.
  - intros H; inversion H; auto.
Qed.

Lemma samePosition_neq (a b : Position) : samePosition a b = false <-> a <> b.
Proof.
  rewrite <- samePosition_eq. destruct (samePosition a b); split; congruence.
Qed.

(** From index 1 on, the callback of line 77 is a plain membership test. *)
Lemma some_from_tail (newHead : Position) (arr : list Position) (i : nat) :
  some_from
    (fun segment index =>
       negb (index =? 0)%nat
       && (fst segment =? fst newHead) && (snd segment =? snd newHead))
    (S i) arr = true <-> In newHead arr.
Proof.
  revert i. induction arr as [|seg rest IH]; intros i; simpl.
  - split; [discriminate | tauto].
  - rewrite orb_true_iff, IH.
    change ((fst seg =? fst newHead) && (snd seg =? snd newHead))
      with (samePosition seg newHead).
    rewrite samePosition_eq. intuition congruence.
Qed.

Lemma selfCollision_cons (h : Position) (t : list Position) (nh : Position) :
  selfCollision (h :: t) nh = true <-> In nh t.
Proof.
  unfold selfCollision, Array_some. simpl. apply some_from_tail.
Qed.

Lemma selfCollision_single (p nh : Position) : selfCollision [p] nh = false.
Proof. reflexivity. Qed.

Lemma last_In {A : Type} (l : list A) (d : A) : l <> [] -> In (last l d) l.
Proof.
  induction l as [|x [|y l'] IH]; intros Hne.
  - congruence.
  - left; reflexivity.
  - right. apply IH. discriminate.
Qed.

Lemma pop_length {A : Type} (x : A) (l : list A) :
  length (pop (unshift x l)) = length l.
Proof.
  unfold pop, unshift. revert x.
  induction l as [|y l IH]; intros x; [reflexivity|].
  change (removelast (x :: y :: l)) with (x :: removelast (y :: l)).
  simpl length. f_equal. apply IH.
Qed.

(** ** What [commit] touches: the interval reference only *)

Lemma commit_fields (prev next : State) :
  snake (commit prev next) = snake next
  /\ direction (commit prev next) = direction next
  /\ food (commit prev next) = food next
  /\ gameOver (commit prev next) = gameOver next
  /\ score (commit prev next) = score next
  /\ isPlaying (commit prev next) = isPlaying next
  /\ difficulty (commit prev next) = difficulty next.
Proof.
  unfold commit, intervalEffect.
  destruct (sameDeps prev next), (isPlaying next) eqn:E; simpl; auto 10.
Qed.

Ltac commit_simpl :=
  repeat match goal with
  | |- context [snake (commit ?p ?n)] =>
      rewrite (proj1 (commit_fields p n))
  | |- context [direction (commit ?p ?n)] =>
      rewrite (proj1 (proj2 (commit_fields p n)))
  | |- context [food (commit ?p ?n)] =>
      rewrite (proj1 (proj2 (proj2 (commit_fields p n))))
  | |- context [gameOver (commit ?p ?n)] =>
      rewrite (proj1 (proj2 (proj2 (proj2 (commit_fields p n)))))
  | |- context [score (commit ?p ?n)] =>
      rewrite (proj1 (proj2 (proj2 (proj2 (proj2 (commit_fields p n))))))
  | |- context [isPlaying (commit ?p ?n)] =>
      rewrite (proj1 (proj2 (proj2 (proj2 (proj2 (proj2 (commit_fields p n)))))))
  | |- context [difficulty (commit ?p ?n)] =>
      rewrite (proj2 (proj2 (proj2 (proj2 (proj2 (proj2 (commit_fields p n)))))))
  end.

Lemma sameDeps_refl (s : State) : sameDeps s s = true.
Proof.
  unfold sameDeps.
  assert (Hp : forall p, samePosition p p = true)
    by (intros p; apply samePosition_eq; reflexivity).
  assert (Hs : forall l, sameSnake l l = true)
    by (induction l as [|x l IH]; simpl; [|rewrite Hp, IH]; reflexivity).
  rewrite !Bool.eqb_reflx, Hs, Hp.
  destruct (difficulty s), (direction s); reflexivity.
Qed.

Lemma commit_same (s : State) : commit s s = s.
Proof. unfold commit. rewrite sameDeps_refl. reflexivity. Qed.

(** When [isPlaying] flips, the effect re-runs. *)
Lemma commit_isPlaying_changed (prev next : State) :
  isPlaying prev <> isPlaying next -> commit prev next = intervalEffect next.
Proof.
  intros H. unfold commit, sameDeps.
  destruct (isPlaying prev), (isPlaying next); simpl; congruence.
Qed.

(** ** The tick, case by case *)

Section Tick.
Variables (s : State) (rx ry : Q) (h : Position) (t : list Position).
Hypothesis Hplay : Playing s.
Hypothesis Hsnake : snake s = h :: t.

Let newHead := newHeadOf (direction s) h.

Lemma moveSnake_collision :
  selfCollision (snake s) newHead = true ->
  moveSnake s rx ry = Some (setIsPlaying false (setGameOver true s)).
Proof.
  destruct Hplay as [Hp Hg]. unfold moveSnake.
  rewrite Hp, Hg. simpl. intros Hc. rewrite Hsnake in *.
  fold newHead. rewrite Hc. reflexivity.
Qed.

Lemma moveSnake_eat :
  selfCollision (snake s) newHead = false ->
  newHead = food s ->
  moveSnake s rx ry =
  Some (setSnake (newHead :: snake s)
          (setScore (score s + 1) (setFood (getRandomPosition rx ry) s))).
Proof.
  destruct Hplay as [Hp Hg]. unfold moveSnake.
  rewrite Hp, Hg. simpl. intros Hc Hf. rewrite Hsnake in *.
  fold newHead. rewrite Hc.
  change ((fst newHead =? fst (food s)) && (snd newHead =? snd (food s)))
    with (samePosition newHead (food s)).
  rewrite (proj2 (samePosition_eq _ _) Hf). reflexivity.
Qed.

Lemma moveSnake_advance :
  selfCollision (snake s) newHead = false ->
  newHead <> food s ->
  moveSnake s rx ry = Some (setSnake (pop (unshift newHead (snake s))) s).
Proof.
  destruct Hplay as [Hp Hg]. unfold moveSnake.
  rewrite Hp, Hg. simpl. intros Hc Hf. rewrite Hsnake in *.
  fold newHead. rewrite Hc.
  change ((fst newHead =? fst (food s)) && (snd newHead =? snd (food s)))
    with (samePosition newHead (food s)).
  rewrite (proj2 (samePosition_neq _ _) Hf). reflexivity.
Qed.
End Tick.

Lemma moveSnake_idle (s : State) (rx ry : Q) :
  gameOver s = true \/ isPlaying s = false -> moveSnake s rx ry = Some s.
Proof.
  unfold moveSnake. intros [-> | ->]; [reflexivity|].
  rewrite orb_true_r. reflexivity.
Qed.

(** A tick that does not collide keeps the session playing. *)
Lemma moveSnake_no_collision (s : State) (rx ry : Q) (h : Position)
      (t : list Position) :
  Playing s -> snake s = h :: t ->
  selfCollision (snake s) (newHeadOf (direction s) h) = false ->
  exists s', moveSnake s rx ry = Some s'
    /\ Playing s' /\ direction s' = direction s
    /\ difficulty s' = difficulty s
    /\ head (snake s') = Some (newHeadOf (direction s) h).
Proof.
  intros Hplay Hs Hc.
  destruct (samePosition (newHeadOf (direction s) h) (food s)) eqn:E.
  - apply samePosition_eq in E.
    rewrite (moveSnake_eat s rx ry h t Hplay Hs Hc E).
    eexists; split; [reflexivity|]. simpl. auto.
  - apply samePosition_neq in E.
    rewrite (moveSnake_advance s rx ry h t Hplay Hs Hc E).
    eexists; split; [reflexivity|]. simpl.
    repeat split; try apply Hplay.
    rewrite Hs. unfold pop, unshift.
    change (removelast (newHeadOf (direction s) h :: h :: t))
      with (newHeadOf (direction s) h :: removelast (h :: t)).
    reflexivity.
Qed.

(** ** The movement step *)

Example tick_advances :
  moveSnake threeState 0 0
  = Some (setSnake [(4, 3); (3, 3); (2, 3)] threeState).
Proof. reflexivity. Qed.

Example tick_eats :
  moveSnake aboutToEat (1 # 2) (1 # 2)
  = Some (mkState [(6, 5); (5, 5)] RIGHT (10, 10) false 1 true Normal
            (Some 150)).
Proof. vm_compute. reflexivity. Qed.

Example tick_wraps :
  newHeadOf LEFT (0, 7) = (19, 7) /\ newHeadOf DOWN (3, 19) = (3, 0).
Proof. split; reflexivity. Qed.

(** C3: the self-collision test runs on the body as it is before the move
    and before the tail is dropped: with an Organism of length at least 2
    whose new head is the cell of its current tail, the tick ends the
    session in GameOver (and does not move the Organism). *)
Theorem C3_moving_into_tail_is_collision
        (s : State) (rx ry : Q) (h : Position) (t : list Position) :
  Playing s ->
  snake s = h :: t ->
  (2 <= length (snake s))%nat ->
  newHeadOf (direction s) h = last (snake s) h ->
  exists s', dispatch s (Tick rx ry) = Some s'
    /\ GameOver s' /\ snake s' = snake s.
Proof.
  intros Hplay Hs Hlen Hlast.
  assert (Hc : selfCollision (snake s) (newHeadOf (direction s) h) = true).
  { rewrite Hs, selfCollision_cons, Hlast, Hs.
    destruct t as [|x t']; [rewrite Hs in Hlen; simpl in Hlen; lia|].
    change (last (h :: x :: t') h) with (last (x :: t') h).
    apply last_In. discriminate. }
  unfold dispatch, handle.
  rewrite (moveSnake_collision s rx ry h t Hplay Hs Hc). simpl.
  eexists; split; [reflexivity|].
  unfold GameOver. commit_simpl. simpl. auto.
Qed.

Lemma C3_witness :
  exists s', dispatch loopState (Tick 0 0) = Some s'
    /\ GameOver s' /\ snake s' = [(3, 3); (4, 3); (4, 4); (3, 4)].
Proof.
  apply (C3_moving_into_tail_is_collision loopState 0 0 (3, 3)
           [(4, 3); (4, 4); (3, 4)]).
  - split; reflexivity.
  - reflexivity.
  - simpl; lia.
  - reflexivity.
Defined.

(** C4: a tick that is executed while playing and does not collide
    lengthens the Organism by one cell and adds one to the Score when the
    new head is the Food cell, and leaves both the length and the Score as
    they were when it is not. *)
Theorem C4_length_and_score
        (s : State) (rx ry : Q) (h : Position) (t : list Position) :
  Playing s ->
  snake s = h :: t ->
  selfCollision (snake s) (newHeadOf (direction s) h) = false ->
  exists s', dispatch s (Tick rx ry) = Some s'
    /\ (newHeadOf (direction s) h = food s ->
        length (snake s') = S (length (snake s)) /\ score s' = score s + 1)
    /\ (newHeadOf (direction s) h <> food s ->
        length (snake s') = length (snake s) /\ score s' = score s).
Proof.
  intros Hplay Hs Hc. unfold dispatch, handle.
  destruct (samePosition (newHeadOf (direction s) h) (food s)) eqn:E.
  - apply samePosition_eq in E.
    rewrite (moveSnake_eat s rx ry h t Hplay Hs Hc E). simpl.
    eexists; split; [reflexivity|]. commit_simpl. simpl.
    split; [auto | congruence].
  - apply samePosition_neq in E.
    rewrite (moveSnake_advance s rx ry h t Hplay Hs Hc E). simpl.
    eexists; split; [reflexivity|]. commit_simpl. simpl.
    split; [congruence|]. intros _. split; [apply pop_length | reflexivity].
Qed.

Lemma C4_witness :
  exists s', dispatch threeState (Tick 0 0) = Some s'
    /\ ((4, 3) = (9, 9) ->
        length (snake s') = 4%nat /\ score s' = 2 + 1)
    /\ ((4, 3) <> (9, 9) ->
        length (snake s') = 3%nat /\ score s' = 2).
Proof.
  apply (C4_length_and_score threeState 0 0 (3, 3) [(2, 3); (1, 3)]).
  - split; reflexivity.
  - reflexivity.
  - reflexivity.
Defined.

(** C10: the self-collision test ignores index 0 of the body (it is a
    membership test on the cells after the head), so a tick on an Organism
    of length 1 that is not already over cannot end in GameOver, whatever
    the heading. *)
Theorem C10_single_cell_never_collides
        (s : State) (rx ry : Q) (p : Position) :
  snake s = [p] ->
  gameOver s = false ->
  (forall h t nh, selfCollision (h :: t) nh = true <-> In nh t)
  /\ (forall d, selfCollision (snake s) (newHeadOf d p) = false)
  /\ exists s', dispatch s (Tick rx ry) = Some s' /\ gameOver s' = false.
Proof.
  intros Hs Hg. split; [exact selfCollision_cons|].
  split; [intros d; rewrite Hs; reflexivity|].
  unfold dispatch, handle.
  destruct (isPlaying s) eqn:Hp.
  - assert (Hplay : Playing s) by (split; assumption).
    assert (Hc : selfCollision (snake s) (newHeadOf (direction s) p) = false)
      by (rewrite Hs; reflexivity).
    destruct (moveSnake_no_collision s rx ry p [] Hplay Hs Hc)
      as (s' & -> & [_ Hg'] & _).
    simpl. eexists; split; [reflexivity|]. commit_simpl. exact Hg'.
  - rewrite moveSnake_idle by (right; exact Hp). simpl.
    eexists; split; [reflexivity|]. commit_simpl. exact Hg.
Qed.

Lemma C10_witness :
  (forall h t nh, selfCollision (h :: t) nh = true <-> In nh t)
  /\ (forall d, selfCollision [(5, 5)] (newHeadOf d (5, 5)) = false)
  /\ exists s', dispatch (setIsPlaying true initialState) (Tick 0 0) = Some s'
                /\ gameOver s' = false.
Proof.
  apply (C10_single_cell_never_collides (setIsPlaying true initialState) 0 0
           (5, 5)); reflexivity.
Defined.

(** ** Game over *)

Lemma commit_stopped (prev next : State) :
  isPlaying next = false -> gameIntervalRef next = None ->
  commit prev next = next.
Proof.
  intros Hp Hr. unfold commit, intervalEffect. rewrite Hp.
  destruct (sameDeps prev next); [reflexivity|].
  destruct next; simpl in *. subst. reflexivity.
Qed.

(** In GameOver only a restart does anything to the Organism or the Score. *)
Lemma gameover_dispatch (s : State) (e : Event) :
  GameOver s -> gameIntervalRef s = None -> is_restart e = false ->
  exists s', dispatch s e = Some s'
    /\ GameOver s' /\ gameIntervalRef s' = None
    /\ snake s' = snake s /\ score s' = score s.
Proof.
  intros [Hg Hp] Hr He. unfold dispatch.
  assert (Hkeep : forall n : State,
             gameOver n = true -> isPlaying n = false ->
             gameIntervalRef n = None -> snake n = snake s ->
             score n = score s ->
             exists s', Some (commit s n) = Some s'
               /\ GameOver s' /\ gameIntervalRef s' = None
               /\ snake s' = snake s /\ score s' = score s).
  { intros n H1 H2 H3 H4 H5. rewrite commit_stopped by assumption.
    exists n. unfold GameOver. auto. }
  destruct e as [rx ry|key|d|rx ry|rx ry|value rx ry]; simpl in *;
    try discriminate.
  - rewrite moveSnake_idle by (left; exact Hg). simpl. apply Hkeep; auto.
  - unfold handleKeyPress. rewrite Hp. simpl. apply Hkeep; auto.
  - unfold handleTouchStart. rewrite Hp. simpl. apply Hkeep; auto.
  - unfold handleDifficultyChange. rewrite Hp. apply Hkeep; auto.
Qed.

Lemma gameover_run (es : list Event) (s : State) :
  GameOver s -> gameIntervalRef s = None ->
  Forall (fun e => is_restart e = false) es ->
  exists s', run s es = Some s'
    /\ GameOver s' /\ gameIntervalRef s' = None
    /\ snake s' = snake s /\ score s' = score s.
Proof.
  revert s. induction es as [|e es IH]; intros s Hg Hr Hes.
  - exists s. simpl. auto.
  - inversion Hes as [|e' es' He Hes']; subst.
    destruct (gameover_dispatch s e Hg Hr He)
      as (s1 & Hd & Hg1 & Hr1 & Hsn & Hsc).
    destruct (IH s1 Hg1 Hr1 Hes') as (s2 & Hrun & Hg2 & Hr2 & Hsn2 & Hsc2).
    exists s2. simpl. rewrite Hd. repeat split; try apply Hg2; congruence.
Qed.

(** C6: a tick that detects self-collision puts the session in GameOver,
    leaves no live interval, and leaves Organism, Food and Score as they
    were; from then on every sequence of events without a restart (ticks
    included) leaves the session in GameOver with the same Organism and
    Score. *)
Theorem C6_collision_ends_session
        (s : State) (rx ry : Q) (h : Position) (t : list Position)
        (es : list Event) :
  Playing s ->
  snake s = h :: t ->
  selfCollision (snake s) (newHeadOf (direction s) h) = true ->
  Forall (fun e => is_restart e = false) es ->
  exists s', dispatch s (Tick rx ry) = Some s'
    /\ GameOver s' /\ gameIntervalRef s' = None
    /\ snake s' = snake s /\ food s' = food s /\ score s' = score s
    /\ exists s'', run s' es = Some s''
         /\ GameOver s'' /\ gameIntervalRef s'' = None
         /\ snake s'' = snake s /\ score s'' = score s.
Proof.
  intros Hplay Hs Hc Hes. unfold dispatch, handle.
  rewrite (moveSnake_collision s rx ry h t Hplay Hs Hc). simpl.
  set (n := setIsPlaying false (setGameOver true s)).
  assert (Hn : commit s n = setGameIntervalRef None n).
  { rewrite commit_isPlaying_changed; [reflexivity|].
    destruct Hplay as [-> _]. discriminate. }
  rewrite Hn. eexists; split; [reflexivity|].
  assert (Hg : GameOver (setGameIntervalRef None n)) by (split; reflexivity).
  repeat split.
  destruct (gameover_run es (setGameIntervalRef None n) Hg eq_refl Hes)
    as (s2 & Hrun & Hg2 & Hr2 & Hsn & Hsc).
  exists s2. auto.
Qed.

Lemma C6_witness :
  exists s', dispatch loopState (Tick 0 0) = Some s'
    /\ GameOver s' /\ gameIntervalRef s' = None
    /\ snake s' = snake loopState /\ food s' = food loopState
    /\ score s' = score loopState
    /\ exists s'',
         run s' [Tick 0 0; KeyDown "ArrowUp"; Tick 0 0; TouchStart LEFT;
                 SelectDifficulty Hard 0 0; Tick 0 0] = Some s''
         /\ GameOver s'' /\ gameIntervalRef s'' = None
         /\ snake s'' = snake loopState /\ score s'' = score loopState.
Proof.
  apply (C6_collision_ends_session loopState 0 0 (3, 3)
           [(4, 3); (4, 4); (3, 4)]).
  - split; reflexivity.
  - reflexivity.
  - reflexivity.
  - repeat constructor.
Defined.

(** ** Direction requests *)

(** C7: one request (by key or by touch) for the exact opposite of the
    current heading is rejected: it changes nothing, the heading included.
    While playing, a request for any other heading is accepted: it becomes
    the heading. *)
Theorem C7_single_request (s : State) (d : Direction) :
  handleKeyPress s (keyOf (opposite (direction s))) = s
  /\ handleTouchStart s (opposite (direction s)) = s
  /\ (isPlaying s = true -> d <> opposite (direction s) ->
      direction (handleKeyPress s (keyOf d)) = d
      /\ direction (handleTouchStart s d) = d).
Proof.
  unfold handleKeyPress, handleTouchStart.
  destruct s as [sn dir fd go sc ip df ref]. simpl.
  destruct ip; simpl.
  - repeat split.
    + destruct dir; reflexivity.
    + destruct dir; reflexivity.
    + destruct dir, d; simpl in *; congruence.
    + destruct dir, d; simpl in *; congruence.
  - repeat split; discriminate.
Qed.

Lemma C7_witness :
  handleKeyPress threeState (keyOf (opposite RIGHT)) = threeState
  /\ handleTouchStart threeState (opposite RIGHT) = threeState
  /\ direction (handleKeyPress threeState (keyOf UP)) = UP
  /\ direction (handleTouchStart threeState UP) = UP.
Proof.
  destruct (C7_single_request threeState UP) as (Hk & Ht & Hacc).
  split; [exact Hk|]. split; [exact Ht|].
  apply Hacc; [reflexivity | discriminate].
Defined.

(** ** Difficulty *)

(** C9: selecting a difficulty while playing restarts the session: Score
    0, the Organism the single cell (5, 5), heading RIGHT, still playing,
    at the selected difficulty.  Selecting it while not playing (no
    interval is live then) changes the difficulty, hence the configured
    period, and nothing else. *)
Theorem C9_difficulty_change
        (s1 s2 : State) (value : Difficulty) (rx ry : Q) :
  isPlaying s1 = true ->
  isPlaying s2 = false ->
  gameIntervalRef s2 = None ->
  (exists s', dispatch s1 (SelectDifficulty value rx ry) = Some s'
     /\ score s' = 0 /\ snake s' = [(5, 5)] /\ direction s' = RIGHT
     /\ Playing s' /\ difficulty s' = value)
  /\ dispatch s2 (SelectDifficulty value rx ry) = Some (setDifficulty value s2)
  /\ GAME_SPEEDS (difficulty (setDifficulty value s2)) = GAME_SPEEDS value.
Proof.
  intros H1 H2 Hr. unfold dispatch, handle, handleDifficultyChange.
  rewrite H1, H2. simpl. split.
  - eexists; split; [reflexivity|]. unfold Playing. commit_simpl.
    simpl. auto 10.
  - split; [|reflexivity]. rewrite commit_stopped; auto.
Qed.

Lemma C9_witness :
  (exists s', dispatch threeState (SelectDifficulty Hard 0 0) = Some s'
     /\ score s' = 0 /\ snake s' = [(5, 5)] /\ direction s' = RIGHT
     /\ Playing s' /\ difficulty s' = Hard)
  /\ dispatch initialState (SelectDifficulty Hard 0 0)
     = Some (setDifficulty Hard initialState)
  /\ GAME_SPEEDS (difficulty (setDifficulty Hard initialState))
     = GAME_SPEEDS Hard.
Proof.
  apply (C9_difficulty_change threeState initialState Hard 0 0); reflexivity.
Defined.

(** ** The grid *)

Lemma newHeadOf_axis (d : Direction) (hx hy : Z) :
  0 <= hx -> 0 <= hy ->
  match d with
  | UP | DOWN =>
      fst (newHeadOf d (hx, hy)) = hx
      /\ 0 <= snd (newHeadOf d (hx, hy)) < GRID_SIZE
  | LEFT | RIGHT =>
      snd (newHeadOf d (hx, hy)) = hy
      /\ 0 <= fst (newHeadOf d (hx, hy)) < GRID_SIZE
  end.
Proof.
  intros Hx Hy. unfold GRID_SIZE.
  destruct d; simpl; (split; [reflexivity|]);
    apply Z.rem_bound_pos; unfold GRID_SIZE; lia.
Qed.

Lemma newHeadOf_in_grid (d : Direction) (p : Position) :
  in_grid p -> in_grid (newHeadOf d p).
Proof.
  destruct p as [hx hy]. intros [Hx Hy]. simpl in Hx, Hy.
  pose proof (newHeadOf_axis d hx hy (proj1 Hx) (proj1 Hy)) as H.
  unfold in_grid. destruct d; destruct H as [E H]; rewrite E; auto.
Qed.

Lemma Qfloor_unit_draw (r : Q) :
  unit_draw r -> 0 <= Qfloor (r * inject_Z GRID_SIZE) < GRID_SIZE.
Proof.
  intros [H0 H1]. unfold GRID_SIZE. split.
  - change 0 with (Qfloor (inject_Z 0)). apply Qfloor_resp_le.
    apply Qmult_le_0_compat; [exact H0 | discriminate].
  - apply Z.lt_nge. intros Hge.
    apply (Qlt_irrefl (r * inject_Z 20)).
    apply Qlt_le_trans with (inject_Z 20).
    + setoid_replace (inject_Z 20) with (1 * inject_Z 20)%Q at 2 by ring.
      apply Qmult_lt_compat_r; [reflexivity | exact H1].
    + apply Qle_trans with (inject_Z (Qfloor (r * inject_Z 20))).
      * rewrite <- Zle_Qle. exact Hge.
      * apply Qfloor_le.
Qed.

Lemma getRandomPosition_in_grid (rx ry : Q) :
  unit_draw rx -> unit_draw ry -> in_grid (getRandomPosition rx ry).
Proof.
  intros Hx Hy. split; simpl; apply Qfloor_unit_draw; assumption.
Qed.




(** ** Invariants of the reachable states *)

Lemma Forall_pop {A : Type} (P : A -> Prop) (l : list A) :
  Forall P l -> Forall P (pop l).
Proof.
  unfold pop. induction 1 as [|x l Hx Hl IH]; simpl; [constructor|].
  destruct l; [constructor | constructor; assumption].
Qed.

Lemma Inv_reset (s : State) (rx ry : Q) :
  unit_draw rx -> unit_draw ry -> Inv (resetGame s rx ry).
Proof.
  intros Hx Hy. constructor; simpl.
  - discriminate.
  - repeat constructor; simpl; unfold GRID_SIZE; lia.
  - apply getRandomPosition_in_grid; assumption.
  - reflexivity.
  - discriminate.
Qed.

Lemma Inv_setDirection (s : State) (d : Direction) :
  Inv s -> Inv (setDirection d s).
Proof. intros [? ? ? ? ?]. constructor; assumption. Qed.

Lemma Inv_setDifficulty (s : State) (d : Difficulty) :
  Inv s -> Inv (setDifficulty d s).
Proof. intros [? ? ? ? ?]. constructor; assumption. Qed.

Lemma Inv_moveSnake (s : State) (rx ry : Q) :
  Inv s -> unit_draw rx -> unit_draw ry ->
  exists s', moveSnake s rx ry = Some s' /\ Inv s'.
Proof.
  intros HI Hx Hy.
  destruct (gameOver s) eqn:Hg.
  { rewrite moveSnake_idle by (left; exact Hg). eauto. }
  destruct (isPlaying s) eqn:Hp.
  2:{ rewrite moveSnake_idle by (right; exact Hp). eauto. }
  assert (Hplay : Playing s) by (split; assumption).
  destruct HI as [Hne Hcells Hfood Hlen Hover].
  destruct (snake s) as [|h t] eqn:Hs; [congruence|].
  assert (Hnh : in_grid (newHeadOf (direction s) h)).
  { apply newHeadOf_in_grid. inversion Hcells; assumption. }
  destruct (selfCollision (snake s) (newHeadOf (direction s) h)) eqn:Hc.
  { rewrite (moveSnake_collision s rx ry h t Hplay Hs Hc).
    eexists; split; [reflexivity|].
    constructor; simpl; rewrite ?Hs; auto. }
  destruct (samePosition (newHeadOf (direction s) h) (food s)) eqn:E.
  - apply samePosition_eq in E.
    rewrite (moveSnake_eat s rx ry h t Hplay Hs Hc E).
    eexists; split; [reflexivity|].
    constructor;
      cbn [snake food score gameOver isPlaying setSnake setScore setFood];
      rewrite ?Hs.
    + discriminate.
    + constructor; assumption.
    + apply getRandomPosition_in_grid; assumption.
    + change (length (newHeadOf (direction s) h :: h :: t))
        with (S (length (h :: t))).
      rewrite Nat2Z.inj_succ. lia.
    + congruence.
  - apply samePosition_neq in E.
    rewrite (moveSnake_advance s rx ry h t Hplay Hs Hc E).
    eexists; split; [reflexivity|].
    constructor; cbn [snake food score gameOver isPlaying setSnake];
      rewrite ?Hs.
    + unfold pop, unshift.
      change (removelast (newHeadOf (direction s) h :: h :: t))
        with (newHeadOf (direction s) h :: removelast (h :: t)).
      discriminate.
    + apply Forall_pop. constructor; assumption.
    + assumption.
    + rewrite pop_length. exact Hlen.
    + congruence.
Qed.

Lemma Inv_handle (s : State) (e : Event) :
  Inv s -> valid_event e -> exists s', handle s e = Some s' /\ Inv s'.
Proof.
  intros HI He.
  destruct e as [rx ry|key|d|rx ry|rx ry|value rx ry]; simpl in *.
  - destruct He. apply Inv_moveSnake; assumption.
  - eexists; split; [reflexivity|]. unfold handleKeyPress.
    repeat match goal with
           | |- context [if ?b then _ else _] => destruct b
           end; auto using Inv_setDirection.
  - eexists; split; [reflexivity|]. unfold handleTouchStart.
    repeat match goal with
           | |- context [if ?b then _ else _] => destruct b
           end; auto using Inv_setDirection.
  - destruct He. eexists; split; [reflexivity|].
    unfold startGame.
    destruct (Inv_reset s rx ry) as [? ? ? ? ?]; try assumption.
    constructor; simpl in *; auto.
  - destruct He. eexists; split; [reflexivity|].
    apply Inv_reset; assumption.
  - destruct He. eexists; split; [reflexivity|].
    unfold handleDifficultyChange.
    destruct (isPlaying s);
      [apply Inv_reset; assumption | apply Inv_setDifficulty; assumption].
Qed.

Lemma Inv_commit (prev next : State) : Inv next -> Inv (commit prev next).
Proof.
  intros [? ? ? ? ?]. constructor; commit_simpl; assumption.
Qed.

Lemma handle_keeps_ref (s s' : State) (e : Event) :
  handle s e = Some s' -> gameIntervalRef s' = gameIntervalRef s.
Proof.
  destruct e as [rx ry|key|d|rx ry|rx ry|value rx ry]; simpl;
    intros H; try (injection H as <-).
  - unfold moveSnake in H.
    repeat match type of H with
           | context [if ?b then _ else _] => destruct b
           | context [match ?l with [] => _ | _ :: _ => _ end] => destruct l
           end; try discriminate; injection H as <-; reflexivity.
  - unfold handleKeyPress.
    repeat match goal with
           | |- context [if ?b then _ else _] => destruct b
           end; reflexivity.
  - unfold handleTouchStart.
    repeat match goal with
           | |- context [if ?b then _ else _] => destruct b
           end; reflexivity.
  - reflexivity.
  - reflexivity.
  - unfold handleDifficultyChange. destruct (isPlaying s); reflexivity.
Qed.

Lemma sameDeps_clock (a b : State) :
  sameDeps a b = true ->
  isPlaying a = isPlaying b /\ difficulty a = difficulty b.
Proof.
  unfold sameDeps. rewrite !andb_true_iff.
  intros [[[[[Hp Hd] _] _] _] _]. split.
  - apply Bool.eqb_prop. exact Hp.
  - destruct (difficulty a), (difficulty b); simpl in Hd; congruence.
Qed.

Lemma clock_commit (prev next : State) :
  clock_ok prev -> gameIntervalRef next = gameIntervalRef prev ->
  clock_ok (commit prev next).
Proof.
  unfold clock_ok, commit. intros Hc Hr.
  destruct (sameDeps prev next) eqn:E.
  - destruct (sameDeps_clock _ _ E) as [<- <-]. congruence.
  - unfold intervalEffect. destruct (isPlaying next) eqn:Hp; simpl;
      rewrite ?Hp; reflexivity.
Qed.

Lemma Inv_dispatch (s : State) (e : Event) :
  Inv s -> clock_ok s -> valid_event e ->
  exists s', dispatch s e = Some s' /\ Inv s' /\ clock_ok s'.
Proof.
  intros HI Hc He. unfold dispatch.
  destruct (Inv_handle s e HI He) as (n & Hn & HIn). rewrite Hn. simpl.
  eexists; split; [reflexivity|]. split.
  - apply Inv_commit; exact HIn.
  - apply clock_commit; [exact Hc | eapply handle_keeps_ref; exact Hn].
Qed.

Lemma Inv_mounted (rx ry : Q) :
  unit_draw rx -> unit_draw ry ->
  Inv (mounted rx ry) /\ clock_ok (mounted rx ry).
Proof.
  intros Hx Hy. unfold mounted. split.
  - apply Inv_commit. constructor; simpl.
    + discriminate.
    + repeat constructor; simpl; unfold GRID_SIZE; lia.
    + apply getRandomPosition_in_grid; assumption.
    + reflexivity.
    + discriminate.
  - apply clock_commit; reflexivity.
Qed.

Lemma reachable_Inv (s : State) : reachable s -> Inv s /\ clock_ok s.
Proof.
  induction 1 as [rx ry Hx Hy | s e s' Hr [HI Hc] He Hd].
  - apply Inv_mounted; assumption.
  - destruct (Inv_dispatch s e HI Hc He) as (s1 & Hd1 & H1).
    rewrite Hd in Hd1. injection Hd1 as ->. exact H1.
Qed.

(** No event throws in a reachable state. *)
Lemma reachable_total (s : State) (e : Event) :
  reachable s -> valid_event e -> exists s', dispatch s e = Some s'.
Proof.
  intros Hr He. destruct (reachable_Inv s Hr) as [HI Hc].
  destruct (Inv_dispatch s e HI Hc He) as (s' & Hd & _). eauto.
Qed.

Lemma run_reachable (es : list Event) (s s' : State) :
  reachable s -> Forall valid_event es -> run s es = Some s' -> reachable s'.
Proof.
  revert s. induction es as [|e es IH]; intros s Hr Hes Hrun; simpl in Hrun.
  - injection Hrun as <-. exact Hr.
  - inversion Hes as [|e' es' He Hes']; subst.
    destruct (dispatch s e) as [s1|] eqn:Hd; [|discriminate].
    apply (IH s1); [eapply reach_step; eassumption | assumption | assumption].
Qed.

(** ** The running example is a reachable state *)

Ltac unit_draws :=
  repeat first
    [ exact I
    | split
    | progress (unfold unit_draw, Qle, Qlt; simpl)
    | lia ].

Lemma demoTrace_valid : Forall valid_event demoTrace.
Proof. unfold demoTrace. repeat constructor; unit_draws. Qed.

Lemma demoState_run : run (mounted 0 0) demoTrace = Some demoState.
Proof. vm_compute. reflexivity. Qed.

Lemma demoState_reachable : reachable demoState.
Proof.
  apply (run_reachable demoTrace (mounted 0 0)).
  - apply reach_mounted; unit_draws.
  - exact demoTrace_valid.
  - exact demoState_run.
Qed.

(** ** Length and score *)

(** C5: in every state reachable from the mounted component by ticks,
    direction requests, starts, restarts and difficulty changes, the
    length of the Organism is the initial length, 1, plus the Score. *)
Theorem C5_length_is_initial_plus_score (s : State) :
  reachable s ->
  length INITIAL_SNAKE = 1%nat
  /\ Z.of_nat (length (snake s)) = Z.of_nat (length INITIAL_SNAKE) + score s.
Proof.
  intros Hr. split; [reflexivity|].
  apply (inv_length s). apply reachable_Inv. exact Hr.
Qed.

Lemma C5_witness :
  length INITIAL_SNAKE = 1%nat
  /\ Z.of_nat (length (snake demoState))
     = Z.of_nat (length INITIAL_SNAKE) + score demoState.
Proof.
  apply (C5_length_is_initial_plus_score demoState).
  exact demoState_reachable.
Defined.

(** ** Wraparound *)




(** ** Food placement *)




(** ** Two requests between two ticks *)

(** Each request is tested against the heading the previous request left,
    so a perpendicular request followed by the opposite one reverses the
    heading before the next tick. *)
Lemma two_requests_reverse (s : State) (p : Direction) :
  isPlaying s = true ->
  p <> direction s -> p <> opposite (direction s) ->
  direction
    (handleKeyPress (handleKeyPress s (keyOf p))
       (keyOf (opposite (direction s))))
  = opposite (direction s)
  /\ direction
       (handleTouchStart (handleTouchStart s p) (opposite (direction s)))
     = opposite (direction s).
Proof.
  intros Hp H1 H2. unfold handleKeyPress, handleTouchStart.
  destruct s as [sn dir fd go sc ip df ref]. simpl in *. subst ip.
  destruct dir, p; simpl in *; try congruence; split; reflexivity.
Qed.

(** C2: the code at the failing input.  In the running example the last
    tick moved UP; the keys ArrowLeft then ArrowDown arrive before the next
    tick and leave the heading DOWN, the opposite of UP; the next tick then
    moves the head into the neck and ends the session. *)
Theorem C2_two_requests_reverse_heading :
  exists s1 s2,
    run (mounted 0 0) demoTrace = Some demoState
    /\ Playing demoState /\ direction demoState = UP
    /\ run demoState [KeyDown "ArrowLeft"; KeyDown "ArrowDown"] = Some s1
    /\ direction s1 = opposite (direction demoState)
    /\ dispatch s1 (Tick 0 0) = Some s2
    /\ GameOver s2.
Proof.
  eexists; eexists.
  split; [exact demoState_run|].
  split; [split; reflexivity|]. split; [reflexivity|].
  split; [vm_compute; reflexivity|]. split; [reflexivity|].
  split; [vm_compute; reflexivity|]. split; reflexivity.
Qed.

(** * Further properties of the code *)

(** ** The grid as a finite set *)

Lemma in_axis (x : Z) : 0 <= x < GRID_SIZE -> In x axis.
Proof.
  intros Hx. unfold axis. apply in_map_iff.
  exists (Z.to_nat x). split; [apply Z2Nat.id; lia|].
  apply in_seq. unfold GRID_SIZE in *. lia.
Qed.

Lemma in_gridCells (p : Position) : in_grid p -> In p gridCells.
Proof.
  destruct p as [x y]. intros [Hx Hy]. simpl in Hx, Hy.
  unfold gridCells. apply in_flat_map.
  exists x. split; [apply in_axis; exact Hx|].
  apply in_map. apply in_axis; exact Hy.
Qed.

(** A decidable property checked on the 400 cells holds on the grid. *)
Lemma grid_forall (P : Position -> bool) :
  forallb P gridCells = true -> forall p, in_grid p -> P p = true.
Proof.
  intros H p Hp. rewrite forallb_forall in H. apply H.
  apply in_gridCells. exact Hp.
Qed.

(** ** Wraparound on the grid *)

Lemma newHeadOf_moves (d : Direction) (p : Position) :
  in_grid p -> newHeadOf d p <> p.
Proof.
  intros Hp.
  assert (H : negb (samePosition (newHeadOf d p) p) = true).
  { revert p Hp. apply grid_forall. destruct d; vm_compute; reflexivity. }
  apply samePosition_neq. destruct (samePosition (newHeadOf d p) p);
    [discriminate | reflexivity].
Qed.

(** X1: on a cell of the grid, a step followed by a step in the opposite
    heading comes back to the cell. *)
Theorem X1_step_then_opposite_step (d : Direction) (p : Position) :
  in_grid p -> newHeadOf (opposite d) (newHeadOf d p) = p.
Proof.
  intros Hp. apply samePosition_eq. revert p Hp. apply grid_forall.
  destruct d; vm_compute; reflexivity.
Qed.

Lemma X1_witness : newHeadOf (opposite LEFT) (newHeadOf LEFT (0, 7)) = (0, 7).
Proof.
  apply (X1_step_then_opposite_step LEFT (0, 7)).
  unfold in_grid, GRID_SIZE. simpl. lia.
Defined.

(** X2: on a cell of the grid, GRID_SIZE steps with one heading come back
    to the cell, and fewer steps (at least one) do not. *)
Theorem X2_step_has_period_grid_size (d : Direction) (p : Position) (n : nat) :
  in_grid p ->
  (0 < n < Z.to_nat GRID_SIZE)%nat ->
  Nat.iter (Z.to_nat GRID_SIZE) (newHeadOf d) p = p
  /\ Nat.iter n (newHeadOf d) p <> p.
Proof.
  intros Hp Hn. split.
  - apply samePosition_eq. revert p Hp. apply grid_forall.
    destruct d; vm_compute; reflexivity.
  - apply samePosition_neq.
    assert (Hin : In n (seq 1 19)).
    { apply in_seq. unfold GRID_SIZE in Hn. simpl in Hn. lia. }
    assert (H : forallb
                  (fun k => forallb
                     (fun q => negb (samePosition
                                       (Nat.iter k (newHeadOf d) q) q))
                     gridCells)
                  (seq 1 19) = true)
      by (destruct d; vm_compute; reflexivity).
    rewrite forallb_forall in H. specialize (H n Hin).
    pose proof (grid_forall _ H p Hp) as Hq. simpl in Hq.
    destruct (samePosition (Nat.iter n (newHeadOf d) p) p);
      [discriminate | reflexivity].
Qed.

Lemma X2_witness :
  Nat.iter (Z.to_nat GRID_SIZE) (newHeadOf UP) (3, 0) = (3, 0)
  /\ Nat.iter 7 (newHeadOf UP) (3, 0) <> (3, 0).
Proof.
  apply (X2_step_has_period_grid_size UP (3, 0) 7).
  - unfold in_grid, GRID_SIZE. simpl. lia.
  - unfold GRID_SIZE. simpl. lia.
Defined.

(** X3: on a cell of the grid, the remainder arithmetic of the step is the
    Euclidean one: each coordinate of the new head is the coordinate plus
    the displacement of the heading, modulo GRID_SIZE. *)
Theorem X3_step_is_addition_modulo (d : Direction) (p : Position) :
  in_grid p ->
  newHeadOf d p
  = ((fst p + fst (delta d)) mod GRID_SIZE,
     (snd p + snd (delta d)) mod GRID_SIZE).
Proof.
  intros Hp. apply samePosition_eq. revert p Hp. apply grid_forall.
  destruct d; vm_compute; reflexivity.
Qed.

Lemma X3_witness :
  newHeadOf UP (4, 0) = ((4 + 0) mod GRID_SIZE, (0 + -1) mod GRID_SIZE).
Proof.
  apply (X3_step_is_addition_modulo UP (4, 0)).
  unfold in_grid, GRID_SIZE. simpl. lia.
Defined.

(** ** More invariants of the reachable states *)

Lemma NoDup_pop {A : Type} (l : list A) : NoDup l -> NoDup (pop l).
Proof.
  unfold pop. induction 1 as [|x l Hx Hl IH]; simpl; [constructor|].
  destruct l as [|y l']; [constructor|].
  constructor; [|exact IH].
  intros Hin. apply Hx. clear - Hin.
  revert y Hin. induction l' as [|z l' IH']; intros y Hin.
  - destruct Hin.
  - change (removelast (y :: z :: l')) with (y :: removelast (z :: l')) in Hin.
    destruct Hin as [-> | Hin]; [left; reflexivity|].
    right. apply IH'. exact Hin.
Qed.

Lemma linked_pop (l : list Position) : linked l -> linked (pop l).
Proof.
  unfold pop. induction l as [|a [|b [|c l']] IH]; simpl; auto.
  intros [Hab Hl]. split; [exact Hab|]. apply IH. exact Hl.
Qed.

Lemma Inv2_moveSnake (s s' : State) (rx ry : Q) :
  Inv s -> Inv2 s -> moveSnake s rx ry = Some s' -> Inv2 s'.
Proof.
  intros HI HI2 Hm.
  destruct (gameOver s) eqn:Hg.
  { rewrite moveSnake_idle in Hm by (left; exact Hg).
    injection Hm as <-. exact HI2. }
  destruct (isPlaying s) eqn:Hp.
  2:{ rewrite moveSnake_idle in Hm by (right; exact Hp).
      injection Hm as <-. exact HI2. }
  assert (Hplay : Playing s) by (split; assumption).
  destruct HI as [Hne Hcells _ _ _]. destruct HI2 as [Hnd Hlk _].
  destruct (snake s) as [|h t] eqn:Hs; [congruence|].
  set (nh := newHeadOf (direction s) h) in *.
  assert (Hnh : nh <> h)
    by (apply newHeadOf_moves; inversion Hcells; assumption).
  destruct (selfCollision (snake s) nh) eqn:Hc.
  { rewrite (moveSnake_collision s rx ry h t Hplay Hs Hc) in Hm.
    injection Hm as <-. constructor; simpl; rewrite ?Hs; auto.
    discriminate. }
  assert (Hnotin : ~ In nh t).
  { intros Hin. rewrite Hs in Hc.
    apply (proj2 (selfCollision_cons h t nh)) in Hin. congruence. }
  assert (Hnd' : NoDup (nh :: h :: t)).
  { constructor; [|exact Hnd]. intros [E | Hin]; [congruence | tauto]. }
  assert (Hlk' : linked (nh :: h :: t)).
  { split; [exists (direction s); reflexivity | exact Hlk]. }
  destruct (samePosition nh (food s)) eqn:E.
  - apply samePosition_eq in E.
    rewrite (moveSnake_eat s rx ry h t Hplay Hs Hc E) in Hm.
    injection Hm as <-.
    constructor; cbn [snake isPlaying gameOver setSnake setScore setFood];
      rewrite ?Hs; [exact Hnd' | exact Hlk' | congruence].
  - apply samePosition_neq in E.
    rewrite (moveSnake_advance s rx ry h t Hplay Hs Hc E) in Hm.
    injection Hm as <-.
    constructor; cbn [snake isPlaying gameOver setSnake]; rewrite ?Hs.
    + change (NoDup (pop (nh :: h :: t))). apply NoDup_pop. exact Hnd'.
    + change (linked (pop (nh :: h :: t))). apply linked_pop. exact Hlk'.
    + congruence.
Qed.

Lemma Inv2_reset (s : State) (rx ry : Q) : Inv2 (resetGame s rx ry).
Proof.
  constructor; simpl.
  - repeat constructor. intros [].
  - exact I.
  - discriminate.
Qed.

Lemma Inv2_handle (s s' : State) (e : Event) :
  Inv s -> Inv2 s -> handle s e = Some s' -> Inv2 s'.
Proof.
  intros HI HI2 He.
  destruct e as [rx ry|key|d|rx ry|rx ry|value rx ry]; simpl in He;
    try (injection He as <-).
  - eapply Inv2_moveSnake; eassumption.
  - unfold handleKeyPress. destruct (isPlaying s) eqn:Hp; simpl; [|exact HI2].
    destruct HI2 as [? ? ?].
    repeat match goal with
           | |- context [if ?b then _ else _] => destruct b
           end; constructor; simpl; auto; congruence.
  - unfold handleTouchStart. destruct (isPlaying s) eqn:Hp; simpl; [|exact HI2].
    destruct HI2 as [? ? ?].
    repeat match goal with
           | |- context [if ?b then _ else _] => destruct b
           end; constructor; simpl; auto; congruence.
  - unfold startGame.
    destruct (Inv2_reset s rx ry) as [? ? ?].
    constructor; simpl in *; auto.
  - apply Inv2_reset.
  - unfold handleDifficultyChange.
    destruct (isPlaying s) eqn:Hp; [apply Inv2_reset|].
    destruct HI2 as [? ? ?]. constructor; simpl; auto.
Qed.

Lemma Inv2_commit (prev next : State) : Inv2 next -> Inv2 (commit prev next).
Proof.
  intros [? ? Hf]. unfold neverStarted in Hf.
  constructor; unfold neverStarted; commit_simpl; assumption.
Qed.

Lemma reachable_Inv2 (s : State) : reachable s -> Inv2 s.
Proof.
  induction 1 as [rx ry Hx Hy | s e s' Hr IH He Hd].
  - unfold mounted. apply Inv2_commit. constructor; simpl.
    + repeat constructor. intros [].
    + exact I.
    + intros _ _. repeat split.
  - unfold dispatch in Hd.
    destruct (handle s e) as [n|] eqn:Hn; [|discriminate].
    simpl in Hd. injection Hd as <-. apply Inv2_commit.
    apply (Inv2_handle s n e); [apply reachable_Inv; exact Hr | exact IH
                               | exact Hn].
Qed.

(** ** The Organism in a reachable state *)

(** X4: in every reachable state the cells of the Organism are pairwise
    different. *)
Theorem X4_no_duplicate_cell (s : State) : reachable s -> NoDup (snake s).
Proof. intros Hr. apply inv_nodup. apply reachable_Inv2. exact Hr. Qed.

Lemma X4_witness : NoDup (snake demoState).
Proof. apply (X4_no_duplicate_cell demoState). exact demoState_reachable. Defined.

(** X5: in every reachable state each cell of the Organism is one step
    (with wraparound) away from the cell that follows it. *)
Theorem X5_consecutive_cells_adjacent (s : State) :
  reachable s -> linked (snake s).
Proof. intros Hr. apply inv_linked. apply reachable_Inv2. exact Hr. Qed.

Lemma X5_witness : linked (snake demoState).
Proof.
  apply (X5_consecutive_cells_adjacent demoState). exact demoState_reachable.
Defined.

Lemma gridCells_length : length gridCells = 400%nat.
Proof. reflexivity. Qed.

(** X6: in every reachable state the Organism has at most 400 cells, one
    per cell of the grid, and the Score is between 0 and 399. *)
Theorem X6_length_and_score_bounded (s : State) :
  reachable s ->
  (1 <= length (snake s) <= 400)%nat /\ 0 <= score s <= 399.
Proof.
  intros Hr.
  destruct (reachable_Inv s Hr) as [[Hne Hcells _ Hlen _] _].
  pose proof (inv_nodup s (reachable_Inv2 s Hr)) as Hnd.
  assert (Hle : (length (snake s) <= 400)%nat).
  { rewrite <- gridCells_length. apply NoDup_incl_length; [exact Hnd|].
    intros p Hp. apply in_gridCells.
    rewrite Forall_forall in Hcells. apply Hcells. exact Hp. }
  assert (Hge : (1 <= length (snake s))%nat).
  { destruct (snake s); [congruence | simpl; lia]. }
  lia.
Qed.

Lemma X6_witness :
  (1 <= length (snake demoState) <= 400)%nat /\ 0 <= score demoState <= 399.
Proof.
  apply (X6_length_and_score_bounded demoState). exact demoState_reachable.
Defined.

(** X7: the tick throws (destructuring the head of an empty array) exactly
    when the session is playing with an empty Organism; this never happens
    in a reachable state, so every sequence of events runs to the end. *)
Theorem X7_tick_never_throws (s : State) (es : list Event) :
  reachable s ->
  Forall valid_event es ->
  (forall s0 rx ry, moveSnake s0 rx ry = None <-> Playing s0 /\ snake s0 = [])
  /\ snake s <> []
  /\ exists s', run s es = Some s' /\ reachable s'.
Proof.
  intros Hr Hes. split; [|split].
  - intros s0 rx ry. unfold moveSnake, Playing.
    destruct (gameOver s0), (isPlaying s0); simpl;
      try (split; [discriminate | intros [[? ?] _]; discriminate]).
    destruct (snake s0) as [|h t].
    + split; auto.
    + split; [|intros [_ ?]; discriminate].
      repeat match goal with
             | |- context [if ?b then _ else _] => destruct b
             end; discriminate.
  - apply inv_nonempty. apply reachable_Inv. exact Hr.
  - revert s Hr. induction Hes as [|e es He Hes IH]; intros s Hr.
    + exists s. split; [reflexivity | exact Hr].
    + destruct (reachable_total s e Hr He) as [s1 Hd].
      destruct (IH s1 (reach_step s e s1 Hr He Hd)) as (s2 & Hrun & Hr2).
      exists s2. simpl. rewrite Hd. auto.
Qed.

Lemma X7_witness :
  (forall s0 rx ry, moveSnake s0 rx ry = None <-> Playing s0 /\ snake s0 = [])
  /\ snake demoState <> []
  /\ exists s',
       run demoState [Tick 0 0; KeyDown "ArrowLeft"; Tick 0 0; Tick 0 0]
       = Some s' /\ reachable s'.
Proof.
  apply (X7_tick_never_throws demoState).
  - exact demoState_reachable.
  - repeat constructor; unit_draws.
Defined.



(** ** The clock and the session *)

(** X9: in every reachable state an interval is live exactly when the
    session is playing, and its period is the one of the selected
    difficulty. *)
Theorem X9_interval_live_iff_playing (s : State) :
  reachable s ->
  gameIntervalRef s
  = if isPlaying s then Some (GAME_SPEEDS (difficulty s)) else None.
Proof. intros Hr. apply reachable_Inv. exact Hr. Qed.

Lemma X9_witness :
  gameIntervalRef demoState
  = if isPlaying demoState then Some (GAME_SPEEDS (difficulty demoState))
    else None.
Proof.
  apply (X9_interval_live_iff_playing demoState). exact demoState_reachable.
Defined.

(** X10: in every reachable state the session is never both playing and
    over; a button is shown under the board exactly when the session is
    not playing; it is Play Again exactly when the game is over; and when
    it is Start Game the session was never started (initial Organism,
    initial heading, Score 0). *)
Theorem X10_overlay_follows_session (s : State) :
  reachable s ->
  (isPlaying s = true -> gameOver s = false)
  /\ (overlay s = None <-> isPlaying s = true)
  /\ (overlay s = Some PlayAgainButton <-> gameOver s = true)
  /\ (overlay s = Some StartGameButton -> neverStarted s).
Proof.
  intros Hr.
  pose proof (inv_over s (proj1 (reachable_Inv s Hr))) as Hover.
  pose proof (inv_fresh s (reachable_Inv2 s Hr)) as Hfresh.
  unfold overlay.
  destruct (gameOver s), (isPlaying s); simpl;
    try (specialize (Hover eq_refl); discriminate);
    (split; [|split; [|split]]);
    try (split; congruence); try congruence.
  intros _. apply Hfresh; reflexivity.
Qed.

Lemma X10_witness :
  (isPlaying (mounted 0 0) = true -> gameOver (mounted 0 0) = false)
  /\ (overlay (mounted 0 0) = None <-> isPlaying (mounted 0 0) = true)
  /\ (overlay (mounted 0 0) = Some PlayAgainButton
      <-> gameOver (mounted 0 0) = true)
  /\ (overlay (mounted 0 0) = Some StartGameButton
      -> neverStarted (mounted 0 0)).
Proof.
  apply (X10_overlay_follows_session (mounted 0 0)).
  apply reach_mounted; unit_draws.
Defined.

(** X11: from a reachable state, Start Game and Play Again both lead to
    the same state, which keeps nothing of the session before but the
    difficulty: initial Organism and heading, Score 0, Food at the drawn
    cell, playing, interval live at the period of the difficulty.
    Selecting a difficulty while playing leads to that state at the
    selected difficulty. *)
Theorem X11_restart_forgets_session
        (s : State) (value : Difficulty) (rx ry : Q) :
  reachable s ->
  dispatch s (ClickStart rx ry) = Some (freshSession (difficulty s) rx ry)
  /\ dispatch s (ClickPlayAgain rx ry)
     = Some (freshSession (difficulty s) rx ry)
  /\ (isPlaying s = true ->
      dispatch s (SelectDifficulty value rx ry)
      = Some (freshSession value rx ry)).
Proof.
  intros Hr. pose proof (proj2 (reachable_Inv s Hr)) as Hc.
  unfold clock_ok in Hc.
  assert (H : forall d,
             commit s (resetGame (setDifficulty d s) rx ry)
             = freshSession d rx ry).
  { intros d. unfold commit.
    destruct (sameDeps s (resetGame (setDifficulty d s) rx ry)) eqn:E.
    - destruct (sameDeps_clock _ _ E) as [Hp Hdf]. clear E.
      destruct s as [sn dir fd go sc ip df ref]. simpl in Hp, Hdf, Hc.
      subst ip df ref. reflexivity.
    - reflexivity. }
  unfold dispatch, handle, startGame, handleDifficultyChange.
  assert (Hsame : setDifficulty (difficulty s) s = s)
    by (destruct s; reflexivity).
  repeat split.
  - simpl. f_equal. rewrite <- (H (difficulty s)).
    rewrite Hsame. destruct s; reflexivity.
  - simpl. f_equal. rewrite <- (H (difficulty s)).
    rewrite Hsame. reflexivity.
  - intros Hp. rewrite Hp. simpl. f_equal.
    rewrite <- (H value).
    unfold commit, sameDeps. destruct s; simpl in *; reflexivity.
Qed.

Lemma X11_witness :
  dispatch demoState (ClickStart (1 # 2) (1 # 4))
  = Some (freshSession (difficulty demoState) (1 # 2) (1 # 4))
  /\ dispatch demoState (ClickPlayAgain (1 # 2) (1 # 4))
     = Some (freshSession (difficulty demoState) (1 # 2) (1 # 4))
  /\ dispatch demoState (SelectDifficulty Hard (1 # 2) (1 # 4))
     = Some (freshSession Hard (1 # 2) (1 # 4)).
Proof.
  destruct (X11_restart_forgets_session demoState Hard (1 # 2) (1 # 4)
              demoState_reachable) as (H1 & H2 & H3).
  split; [exact H1|]. split; [exact H2|]. apply H3. reflexivity.
Defined.

(** ** Direction requests, again *)

(** X12: a touch request for a heading and a press of the arrow key of
    that heading lead to the same state. *)
Theorem X12_key_and_touch_agree (s : State) (d : Direction) :
  handleKeyPress s (keyOf d) = handleTouchStart s d.
Proof.
  unfold handleKeyPress, handleTouchStart.
  destruct s as [sn dir fd go sc ip df ref]. simpl.
  destruct ip; simpl; [|reflexivity].
  destruct dir, d; reflexivity.
Qed.

(** X13: a key press changes the state only when the session is playing
    and the key is the arrow of a heading that is not the opposite of the
    current one, and then it changes the heading only; any other key
    press, whatever the key, leaves the state as it is.  So the heading
    after one key press is never the opposite of the heading before. *)
Theorem X13_key_press_characterised (s : State) (key : string) :
  (handleKeyPress s key = s
   \/ (isPlaying s = true
       /\ exists d, key = keyOf d /\ d <> opposite (direction s)
                    /\ handleKeyPress s key = setDirection d s))
  /\ direction (handleKeyPress s key) <> opposite (direction s).
Proof.
  unfold handleKeyPress.
  destruct s as [sn dir fd go sc ip df ref]. simpl.
  destruct ip; simpl.
  2:{ split; [left; reflexivity | destruct dir; discriminate]. }
  destruct (String.eqb_spec key "ArrowUp") as [-> | _].
  { destruct dir; simpl; (split; [|discriminate]);
      first [ left; reflexivity
            | right; split; [reflexivity|]; exists UP;
              repeat split; try reflexivity; discriminate ]. }
  destruct (String.eqb_spec key "ArrowDown") as [-> | _].
  { destruct dir; simpl; (split; [|discriminate]);
      first [ left; reflexivity
            | right; split; [reflexivity|]; exists DOWN;
              repeat split; try reflexivity; discriminate ]. }
  destruct (String.eqb_spec key "ArrowLeft") as [-> | _].
  { destruct dir; simpl; (split; [|discriminate]);
      first [ left; reflexivity
            | right; split; [reflexivity|]; exists LEFT;
              repeat split; try reflexivity; discriminate ]. }
  destruct (String.eqb_spec key "ArrowRight") as [-> | _].
  { destruct dir; simpl; (split; [|discriminate]);
      first [ left; reflexivity
            | right; split; [reflexivity|]; exists RIGHT;
              repeat split; try reflexivity; discriminate ]. }
  split; [left; reflexivity | destruct dir; discriminate].
Qed.

(** ** How the body follows the head *)

Lemma nth_error_removelast {A : Type} (l : list A) (i : nat) :
  (S i < length l)%nat -> nth_error (removelast l) i = nth_error l i.
Proof.
  revert i. induction l as [|x [|y l'] IH]; intros i Hi.
  - simpl in Hi. lia.
  - simpl in Hi. lia.
  - change (removelast (x :: y :: l')) with (x :: removelast (y :: l')).
    destruct i as [|i]; [reflexivity|].
    simpl nth_error. apply IH. simpl in *. lia.
Qed.

Lemma last_not_in_removelast {A : Type} (l : list A) (d : A) :
  NoDup l -> l <> [] -> ~ In (last l d) (removelast l).
Proof.
  intros Hnd Hne Hin.
  rewrite (app_removelast_last d Hne) in Hnd.
  apply NoDup_remove_2 in Hnd. apply Hnd.
  rewrite app_nil_r. exact Hin.
Qed.

(** X14: a tick from a reachable playing state that neither collides nor
    eats moves the head one step in the heading and every other segment to
    the cell of the segment before it; the cell of the old tail is left
    free. *)
Theorem X14_body_follows_head
        (s : State) (rx ry : Q) (h : Position) (t : list Position) :
  reachable s ->
  Playing s ->
  snake s = h :: t ->
  selfCollision (snake s) (newHeadOf (direction s) h) = false ->
  newHeadOf (direction s) h <> food s ->
  exists s', dispatch s (Tick rx ry) = Some s'
    /\ nth_error (snake s') 0 = Some (newHeadOf (direction s) h)
    /\ (forall i, (S i < length (snake s))%nat ->
                  nth_error (snake s') (S i) = nth_error (snake s) i)
    /\ ~ In (last (snake s) h) (snake s').
Proof.
  intros Hr Hplay Hs Hc Hf.
  pose proof (inv_nodup s (reachable_Inv2 s Hr)) as Hnd.
  pose proof (inv_cells s (proj1 (reachable_Inv s Hr))) as Hcells.
  unfold dispatch, handle.
  rewrite (moveSnake_advance s rx ry h t Hplay Hs Hc Hf). cbn [option_map].
  eexists; split; [reflexivity|]. commit_simpl. cbn [snake setSnake].
  set (nh := newHeadOf (direction s) h) in *.
  assert (Hpop : pop (unshift nh (snake s)) = nh :: removelast (snake s)).
  { rewrite Hs. reflexivity. }
  rewrite Hpop. split; [reflexivity|]. split.
  - intros i Hi. simpl nth_error. apply nth_error_removelast. exact Hi.
  - intros [E | Hin].
    + rewrite Hs in E, Hc. destruct t as [|x t'].
      * simpl in E. apply (newHeadOf_moves (direction s) h); [|exact E].
        rewrite Hs in Hcells. inversion Hcells; assumption.
      * assert (Hin : In nh (x :: t')).
        { rewrite E. change (last (h :: x :: t') h) with (last (x :: t') h).
          apply last_In. discriminate. }
        apply (proj2 (selfCollision_cons h (x :: t') nh)) in Hin. congruence.
    + revert Hin. apply last_not_in_removelast; [exact Hnd|].
      rewrite Hs. discriminate.
Qed.

Lemma X14_witness :
  exists s', dispatch demoState (Tick 0 0) = Some s'
    /\ nth_error (snake s') 0 = Some (newHeadOf (direction demoState) (7, 4))
    /\ (forall i, (S i < length (snake demoState))%nat ->
                  nth_error (snake s') (S i) = nth_error (snake demoState) i)
    /\ ~ In (last (snake demoState) (7, 4)) (snake s').
Proof.
  apply (X14_body_follows_head demoState 0 0 (7, 4) [(7, 5); (6, 5)]).
  - exact demoState_reachable.
  - split; reflexivity.
  - reflexivity.
  - reflexivity.
  - discriminate.
Defined.

(** ** The view *)

(** X15: after a resize with a measured game area of non-negative sides,
    the cell size is a non-negative integer, GRID_SIZE cells fit in the
    smaller side and GRID_SIZE cells one pixel larger would not; the
    mobile flag is set exactly below 768 pixels of window width.  With no
    game area the cell size is kept. *)
Theorem X15_resize_fits_board
        (w h : Q) (innerWidth : Z) (v : View) :
  (0 <= w)%Q -> (0 <= h)%Q ->
  let v' := handleResize (Some (w, h)) innerWidth v in
  0 <= cellSize v'
  /\ (inject_Z (width (boardBox v')) <= w)%Q
  /\ (inject_Z (height (boardBox v')) <= h)%Q
  /\ (Qmin w h < inject_Z (GRID_SIZE * (cellSize v' + 1)))%Q
  /\ (isMobile v' = true <-> innerWidth < 768)
  /\ cellSize (handleResize None innerWidth v) = cellSize v.
Proof.
  intros Hw Hh v'. subst v'. unfold handleResize, boardBox.
  cbn [cellSize isMobile width height].
  set (m := Qmin w h).
  assert (Hm : (0 <= m)%Q) by (apply Q.min_glb; assumption).
  set (q := (m / inject_Z GRID_SIZE)%Q).
  assert (H20 : (q * inject_Z GRID_SIZE == m)%Q)
    by (unfold q; field; discriminate).
  assert (Hfit : (inject_Z (GRID_SIZE * Qfloor q) <= m)%Q).
  { apply Qle_trans with (q * inject_Z GRID_SIZE)%Q;
      [|rewrite H20; apply Qle_refl].
    rewrite inject_Z_mult, Qmult_comm.
    apply Qmult_le_compat_r; [apply Qfloor_le | discriminate]. }
  split; [|split; [|split; [|split; [|split]]]].
  - change 0 with (Qfloor (inject_Z 0)). apply Qfloor_resp_le.
    apply Qle_shift_div_l; [reflexivity|].
    rewrite Qmult_0_l. exact Hm.
  - apply Qle_trans with m; [exact Hfit | apply Q.le_min_l].
  - apply Qle_trans with m; [exact Hfit | apply Q.le_min_r].
  - apply Qle_lt_trans with (q * inject_Z GRID_SIZE)%Q;
      [rewrite H20; apply Qle_refl|].
    rewrite inject_Z_mult, (Qmult_comm (inject_Z GRID_SIZE)).
    apply Qmult_lt_compat_r; [reflexivity | apply Qlt_floor].
  - apply Z.ltb_lt.
  - reflexivity.
Qed.

Lemma X15_witness :
  0 <= cellSize (handleResize (Some (813 # 2, 600 # 1)) 1024 initialView)
  /\ (inject_Z (width (boardBox
        (handleResize (Some (813 # 2, 600 # 1)) 1024 initialView)))
      <= 813 # 2)%Q
  /\ (inject_Z (height (boardBox
        (handleResize (Some (813 # 2, 600 # 1)) 1024 initialView)))
      <= 600 # 1)%Q
  /\ (Qmin (813 # 2) (600 # 1)
      < inject_Z (GRID_SIZE
          * (cellSize (handleResize (Some (813 # 2, 600 # 1)) 1024
                         initialView) + 1)))%Q
  /\ (isMobile (handleResize (Some (813 # 2, 600 # 1)) 1024 initialView)
      = true <-> 1024 < 768)
  /\ cellSize (handleResize None 1024 initialView) = cellSize initialView.
Proof.
  apply (X15_resize_fits_board (813 # 2) (600 # 1) 1024 initialView);
    discriminate.
Defined.




Lemma NoDup_map_on {A B : Type} (f : A -> B) (l : list A) :
  (forall x y, In x l -> In y l -> f x = f y -> x = y) ->
  NoDup l -> NoDup (map f l).
Proof.
  intros Hinj Hnd. induction Hnd as [|x l Hx Hnd IH]; simpl; constructor.
  - intros Hin. apply in_map_iff in Hin. destruct Hin as (y & Hy & Hin).
    assert (y = x) by (apply Hinj; [right; exact Hin | left; reflexivity
                                    | exact Hy]).
    subst y. contradiction.
  - apply IH. intros a b Ha Hb. apply Hinj; right; assumption.
Qed.

Lemma NoDup_map_injective_on {A B : Type} (f : A -> B) (l : list A) :
  NoDup (map f l) ->
  forall x y, In x l -> In y l -> f x = f y -> x = y.
Proof.
  induction l as [|a l IH]; intros Hnd x y Hx Hy E; [destruct Hx|].
  simpl in Hnd. inversion Hnd as [|? ? Ha Hnd']; subst.
  destruct Hx as [-> | Hx], Hy as [-> | Hy].
  - reflexivity.
  - exfalso. apply Ha. rewrite E. apply in_map. exact Hy.
  - exfalso. apply Ha. rewrite <- E. apply in_map. exact Hx.
  - apply IH; assumption.
Qed.

(** The keys of the 400 cells of the grid are pairwise different. *)
Lemma gridCells_keys_NoDup : NoDup (map segmentKey gridCells).
Proof.
  assert (H : nodup string_dec (map segmentKey gridCells)
              = map segmentKey gridCells) by (vm_compute; reflexivity).
  rewrite <- H. apply NoDup_nodup.
Qed.

(** X17: in every reachable state the React keys of the segments are
    pairwise different, and with a positive cell size so are the
    positions at which the segments are drawn. *)
Theorem X17_segments_have_distinct_keys (v : View) (s : State) :
  reachable s ->
  0 < cellSize v ->
  NoDup (map segmentKey (snake s))
  /\ NoDup (map (segmentBox v) (snake s)).
Proof.
  intros Hr Hc.
  pose proof (inv_nodup s (reachable_Inv2 s Hr)) as Hnd.
  pose proof (inv_cells s (proj1 (reachable_Inv s Hr))) as Hcells.
  rewrite Forall_forall in Hcells. split.
  - apply NoDup_map_on; [|exact Hnd].
    intros x y Hx Hy. apply (NoDup_map_injective_on _ _ gridCells_keys_NoDup);
      apply in_gridCells; apply Hcells; assumption.
  - apply NoDup_map_on; [|exact Hnd].
    intros [x1 y1] [x2 y2] _ _ E. unfold segmentBox in E.
    cbn [fst snd] in E. injection E as E1 E2.
    apply Z.mul_reg_r in E1; [|lia]. apply Z.mul_reg_r in E2; [|lia].
    congruence.
Qed.

Lemma X17_witness :
  NoDup (map segmentKey (snake demoState))
  /\ NoDup (map (segmentBox initialView) (snake demoState)).
Proof.
  apply (X17_segments_have_distinct_keys initialView demoState).
  - exact demoState_reachable.
  - reflexivity.
Defined.

Example segmentKey_example : segmentKey (7, 14) = "7-14"%string.
Proof. reflexivity. Qed.

(** ** Requests between two ticks, in general *)

Lemma handleKeyPress_accept (s : State) (d : Direction) :
  isPlaying s = true -> d <> opposite (direction s) ->
  handleKeyPress s (keyOf d) = setDirection d s.
Proof.
  intros Hp Hd. unfold handleKeyPress. rewrite Hp. simpl.
  destruct (direction s), d; simpl in *; congruence.
Qed.

Lemma newHeadOf_opposite (d : Direction) (p : Position) :
  in_grid p -> newHeadOf (opposite d) (newHeadOf d p) = p.
Proof.
  intros Hp. apply samePosition_eq. revert p Hp. apply grid_forall.
  destruct d; vm_compute; reflexivity.
Qed.

(** X18: in a reachable playing state of at least two cells whose head
    came from the neck by a step in the current heading, the arrow key of
    a perpendicular heading followed by the arrow key of the opposite
    heading leaves the heading reversed, and the next tick then runs the
    head into the neck and ends the session. *)
Theorem X18_two_key_presses_end_session
        (s : State) (p : Direction) (h n : Position) (t : list Position)
        (rx ry : Q) :
  reachable s ->
  Playing s ->
  snake s = h :: n :: t ->
  h = newHeadOf (direction s) n ->
  p <> direction s ->
  p <> opposite (direction s) ->
  exists s1 s2,
    run s [KeyDown (keyOf p); KeyDown (keyOf (opposite (direction s)))]
    = Some s1
    /\ direction s1 = opposite (direction s)
    /\ snake s1 = snake s
    /\ dispatch s1 (Tick rx ry) = Some s2
    /\ GameOver s2.
Proof.
  intros Hr [Hp Hg] Hs Hh Hp1 Hp2.
  pose proof (inv_cells s (proj1 (reachable_Inv s Hr))) as Hcells.
  assert (Hn : in_grid n).
  { rewrite Hs in Hcells. inversion Hcells as [|? ? _ Hc']; subst.
    inversion Hc'; assumption. }
  set (sa := commit s (handleKeyPress s (keyOf p))).
  assert (Ha : handleKeyPress s (keyOf p) = setDirection p s).
  { apply handleKeyPress_accept; [exact Hp|].
    destruct (direction s), p; simpl in *; congruence. }
  assert (Hsa : isPlaying sa = true /\ direction sa = p
                /\ snake sa = snake s /\ gameOver sa = false).
  { unfold sa. commit_simpl. rewrite Ha. simpl. auto. }
  destruct Hsa as (Hpa & Hda & Hsna & Hga).
  set (s1 := commit sa (handleKeyPress sa (keyOf (opposite (direction s))))).
  assert (Hb : handleKeyPress sa (keyOf (opposite (direction s)))
               = setDirection (opposite (direction s)) sa).
  { apply handleKeyPress_accept; [exact Hpa|]. rewrite Hda.
    destruct (direction s), p; simpl in *; congruence. }
  assert (Hs1 : isPlaying s1 = true /\ direction s1 = opposite (direction s)
                /\ snake s1 = snake s /\ gameOver s1 = false).
  { unfold s1. commit_simpl. rewrite Hb. simpl. auto. }
  destruct Hs1 as (Hp1' & Hd1 & Hsn1 & Hg1).
  assert (Hplay1 : Playing s1) by (split; assumption).
  assert (Hs1' : snake s1 = h :: n :: t) by congruence.
  assert (Hc : selfCollision (snake s1) (newHeadOf (direction s1) h) = true).
  { rewrite Hs1', Hd1, Hh, newHeadOf_opposite by exact Hn.
    apply selfCollision_cons. left; reflexivity. }
  exists s1. eexists.
  split; [reflexivity|]. split; [exact Hd1|]. split; [exact Hsn1|].
  unfold dispatch, handle.
  rewrite (moveSnake_collision s1 rx ry h (n :: t) Hplay1 Hs1' Hc).
  split; [reflexivity|]. unfold GameOver. commit_simpl. split; reflexivity.
Qed.

Lemma X18_witness :
  exists s1 s2,
    run demoState
        [KeyDown (keyOf LEFT); KeyDown (keyOf (opposite (direction demoState)))]
    = Some s1
    /\ direction s1 = opposite (direction demoState)
    /\ snake s1 = snake demoState
    /\ dispatch s1 (Tick 0 0) = Some s2
    /\ GameOver s2.
Proof.
  apply (X18_two_key_presses_end_session demoState LEFT (7, 4) (7, 5)
           [(6, 5)] 0 0).
  - exact demoState_reachable.
  - split; reflexivity.
  - reflexivity.
  - reflexivity.
  - discriminate.
  - discriminate.
Defined.

(** ** Controls *)

(** X19: in every reachable state the touch buttons and the button under
    the board are never shown together, and while the touch buttons are
    shown a touch request for a heading that is not the opposite of the
    current one becomes the heading. *)
Theorem X19_touch_controls_only_in_play
        (v : View) (s : State) (d : Direction) :
  reachable s ->
  showTouchControls v s = true ->
  overlay s = None
  /\ (d <> opposite (direction s) -> direction (handleTouchStart s d) = d).
Proof.
  intros Hr Ht. unfold showTouchControls in Ht.
  apply andb_true_iff in Ht. destruct Ht as [_ Hp].
  pose proof (inv_over s (proj1 (reachable_Inv s Hr))) as Hover.
  split.
  - unfold overlay. rewrite Hp.
    destruct (gameOver s); [specialize (Hover eq_refl); congruence|].
    reflexivity.
  - intros Hd. unfold handleTouchStart. rewrite Hp. simpl.
    destruct (direction s), d; simpl in *; congruence.
Qed.

Lemma X19_witness :
  overlay demoState = None
  /\ (LEFT <> opposite (direction demoState) ->
      direction (handleTouchStart demoState LEFT) = LEFT).
Proof.
  apply (X19_touch_controls_only_in_play (mkView 16 true) demoState LEFT).
  - exact demoState_reachable.
  - reflexivity.
Defined.

(** ** When the Food moves *)

(** X20: an event moves the Food only if it is a restart (Start Game,
    Play Again, or a difficulty selected while playing) or a tick that
    eats it: the head is then on the cell the Food had and the Score is
    one more. *)
Theorem X20_food_moves_only_when_eaten (s s' : State) (e : Event) :
  dispatch s e = Some s' ->
  food s' <> food s ->
  (exists rx ry, e = Tick rx ry
     /\ hd_error (snake s') = Some (food s) /\ score s' = score s + 1)
  \/ is_restart e = true
  \/ (exists value rx ry, e = SelectDifficulty value rx ry
        /\ isPlaying s = true).
Proof.
  unfold dispatch. intros Hd Hf.
  destruct (handle s e) as [n|] eqn:Hn; [|discriminate].
  simpl in Hd. injection Hd as <-. revert Hf. commit_simpl. intros Hf.
  destruct e as [rx ry|key|d|rx ry|rx ry|value rx ry]; simpl in Hn;
    try (injection Hn as <-).
  - left. exists rx, ry. split; [reflexivity|].
    unfold moveSnake in Hn.
    destruct (gameOver s || negb (isPlaying s));
      [injection Hn as <-; congruence|].
    destruct (snake s) as [|h t]; [discriminate|].
    destruct (selfCollision (h :: t) (newHeadOf (direction s) h));
      [injection Hn as <-; simpl in Hf; congruence|].
    change ((fst (newHeadOf (direction s) h) =? fst (food s))
            && (snd (newHeadOf (direction s) h) =? snd (food s)))
      with (samePosition (newHeadOf (direction s) h) (food s)) in Hn.
    destruct (samePosition (newHeadOf (direction s) h) (food s)) eqn:E;
      injection Hn as <-; [|simpl in Hf; congruence].
    apply samePosition_eq in E. simpl. rewrite E. auto.
  - exfalso. apply Hf. unfold handleKeyPress.
    repeat match goal with
           | |- context [if ?b then _ else _] => destruct b
           end; reflexivity.
  - exfalso. apply Hf. unfold handleTouchStart.
    repeat match goal with
           | |- context [if ?b then _ else _] => destruct b
           end; reflexivity.
  - right; left; reflexivity.
  - right; left; reflexivity.
  - right; right. exists value, rx, ry. split; [reflexivity|].
    unfold handleDifficultyChange in Hf.
    destruct (isPlaying s); [reflexivity | simpl in Hf; congruence].
Qed.

Lemma X20_witness :
  (exists rx ry, Tick (1 # 2) (1 # 2) = Tick rx ry
     /\ hd_error [(6, 5); (5, 5)] = Some (food aboutToEat)
     /\ 1 = score aboutToEat + 1)
  \/ is_restart (Tick (1 # 2) (1 # 2)) = true
  \/ (exists value rx ry, Tick (1 # 2) (1 # 2) = SelectDifficulty value rx ry
        /\ isPlaying aboutToEat = true).
Proof.
  apply (X20_food_moves_only_when_eaten aboutToEat
           (mkState [(6, 5); (5, 5)] RIGHT (10, 10) false 1 true Normal
              (Some 150))
           (Tick (1 # 2) (1 # 2))).
  - vm_compute. reflexivity.
  - discriminate.
Defined.
